(** * wuid: the 64-bit identifier generator of [internal/wuid.go]

    A shallow embedding of the generator ([WUID], [NewWUID], [Next],
    [Reset], [VerifyH24], [WithSection]) and the properties of its
    identifier layout and renewal protocol.

    Machine integers are mathematical integers with the wrap-around
    written out: a [uint64] is a [Z] in [0, 2^64), a [uint8] a [Z] in
    [0, 2^8).  The atomic cell [N] is a field of the generator state and
    every atomic operation is one state transition. *)

From Stdlib Require Import ZArith List String Bool Lia Sorted.
Import ListNotations.

Local Open Scope Z_scope.

(** ** Machine integers *)

Definition uint64 (x : Z) : Prop := 0 <= x < 2 ^ 64.
Definition uint8 (x : Z) : Prop := 0 <= x < 2 ^ 8.

(** Truncation of an arithmetic result to 64 bits. *)
Definition wrap64 (x : Z) : Z := x mod 2 ^ 64.

(** ** Constants *)

(** [CriticalValue uint64 = (1 << 40) * 8 / 10] *)
Definition CriticalValue : Z := Z.shiftl 1 40 * 8 / 10.

(** [RenewInterval uint64 = 0x01FFFFFFFF] *)
Definition RenewInterval : Z := 0x01FFFFFFFF.

(** ** Collaborators: the logger and the renewal callback *)

(** The [Logger] interface has two methods.  The model records the calls
    made on a logger, in order. *)
Inductive LogCall : Type :=
| Info (args : string)
| Warn (args : string).

(** A logger value of the interface type: [None] is Go's [nil]. *)
Definition Logger : Type := option nat.

(** The value [recover()] hands back for a panic in flight, rendered by
    [%+v]: [None] is [nil], which is what [recover()] returns for
    [panic(nil)] where the runtime keeps a nil panic value (Go before
    1.21, or [GODEBUG=panicnil=1]). *)
Definition panicValue : Type := option string.

(** How one call of a [func() error] ends: it returns [nil]
    ([Return None]), returns an error whose [Error()] text is [e]
    ([Return (Some e)]), or panics with the value [r]. *)
Inductive outcome : Type :=
| Return (err : option string)
| Panic (r : panicValue).

(** Modelled from the spec: the renewal callbacks are written by the
    packages that embed the generator and are not part of this file.  By
    their contract (external interfaces, renewal callback) they obtain an
    epoch from the coordinator, pass it through [VerifyH24] and on
    success call [Reset]; on failure they perform no install.  One run is
    recorded as the arguments of the [Reset] calls made on the generator,
    in order, and how the call ended; the argument is the reply of the
    external coordinator. *)
Definition callback : Type := Z -> list Z * outcome.

(** ** The generator *)

Record WUID : Type := mkWUID {
  Section_ : Z;            (* Section uint8 *)
  N : Z;                   (* N uint64 *)
  Tag : string;
  Logger_ : Logger;
  Renew : option callback  (* [None] is the nil func *)
}.

Definition setN (w : WUID) (n : Z) : WUID :=
  mkWUID (Section_ w) n (Tag w) (Logger_ w) (Renew w).

Definition setSection (w : WUID) (s : Z) : WUID :=
  mkWUID s (N w) (Tag w) (Logger_ w) (Renew w).

(** ** Options *)

Definition Option : Type := WUID -> WUID.

(** A computation that may panic. *)
Inductive result (A : Type) : Type :=
| Ok (a : A)
| Panicked (msg : string).
Arguments Ok {A} a.
Arguments Panicked {A} msg.

Definition bind {A B : Type} (m : result A) (k : A -> result B) : result B :=
  match m with
  | Ok a => k a
  | Panicked msg => Panicked msg
  end.

Notation "x <- m ;; k" := (bind m (fun x => k))
  (at level 61, m at next level, right associativity).

Definition sectionPanic : string := "section must be in between [1, 15]".

(** [WithSection]: panics unless the section is in [1, 15]. *)
Definition WithSection (section : Z) : result Option :=
  if (section =? 0) || (16 <=? section)
  then Panicked sectionPanic
  else Ok (fun w => setSection w section).

(** [NewWUID]: the zero-valued struct with [Tag] and [Logger] set, then
    each option applied in order. *)
Definition NewWUID (tag : string) (logger : Logger) (opts : list Option) : WUID :=
  fold_left (fun w opt => opt w) opts (mkWUID 0 0 tag logger None).

(** A construction call [NewWUID(tag, logger, WithSection(s1), ...)]:
    the arguments are evaluated, left to right, before [NewWUID] runs. *)
Fixpoint evalSections (sections : list Z) : result (list Option) :=
  match sections with
  | [] => Ok []
  | s :: rest =>
      o <- WithSection s ;;
      os <- evalSections rest ;;
      Ok (o :: os)
  end.

Definition construct (tag : string) (logger : Logger) (sections : list Z)
  : result WUID :=
  opts <- evalSections sections ;;
  Ok (NewWUID tag logger opts).

(** ** Next *)

(** The test of line 39: [x&0xFFFFFFFFFF >= CriticalValue && x&RenewInterval == 0]. *)
Definition renewDue (x : Z) : bool :=
  (CriticalValue <=? Z.land x 0xFFFFFFFFFF) && (Z.land x RenewInterval =? 0).

(** [Next] returns the value read after the atomic add, the new state,
    and the goroutine it started, if any: the goroutine captures the
    callback read from [w.Renew] under the lock. *)
Definition Next (w : WUID) : Z * WUID * option (option callback) :=
  let x := wrap64 (N w + 1) in
  let w' := setN w x in
  if renewDue x then (x, w', Some (Renew w)) else (x, w', None).

Definition NextValue (w : WUID) : Z := fst (fst (Next w)).
Definition NextState (w : WUID) : WUID := snd (fst (Next w)).
Definition NextSpawn (w : WUID) : option (option callback) := snd (Next w).

(** [n] consecutive calls of [Next]: the values returned, in order, and
    the final state. *)
Fixpoint NextN (n : nat) (w : WUID) : list Z * WUID :=
  match n with
  | O => ([], w)
  | S k =>
      let '(xs, w') := NextN k (NextState w) in
      (NextValue w :: xs, w')
  end.

(** ** Reset *)

Definition Reset (w : WUID) (n : Z) : WUID :=
  if Section_ w =? 0
  then setN w n
  else setN w (Z.lor (Z.land n 0x0FFFFFFFFFFFFFFF)
                     (wrap64 (Z.shiftl (Section_ w) 60))).

(** ** VerifyH24 *)

(** The returned [error]: [None] is [nil]. *)
Definition VerifyH24 (w : WUID) (h24 : Z) : option string :=
  if h24 =? 0 then
    Some ("the h24 should not be 0. tag: " ++ Tag w)%string
  else if Section_ w =? 0 then
    if 0xFFFFFF <? h24 then
      Some ("the h24 should not exceed 0xFFFFFF. tag: " ++ Tag w)%string
    else None
  else
    if 0x0FFFFF <? h24 then
      Some ("the h20 should not exceed 0x0FFFFF. tag: " ++ Tag w)%string
    else None.

(** ** The renewal goroutine *)

(** The body of the goroutine up to its return or panic: the calls made
    on the logger, the state after the callback's [Reset] calls, and the
    panic in flight if any.  Calling the nil func panics with a runtime
    error. *)
Definition renewBody (w : WUID) (renew : option callback) (reply : Z)
  : WUID * list LogCall * option panicValue :=
  match renew with
  | None =>
      (w, [],
       Some (Some "runtime error: invalid memory address or nil pointer dereference"%string))
  | Some f =>
      let '(resets, out) := f reply in
      let w' := fold_left Reset resets w in
      match out with
      | Panic r => (w', [], Some r)
      | Return err =>
          match Logger_ w with
          | None => (w', [], None)
          | Some _ =>
              match err with
              | Some e =>
                  (w', [Warn ("[wuid] renew failed. tag: " ++ Tag w ++ ", reason: " ++ e)%string], None)
              | None =>
                  (w', [Info ("[wuid] renew succeeded. tag: " ++ Tag w)%string], None)
              end
          end
      end
  end.

(** [recover()] in a deferred function: the value of the panic in
    flight, [nil] when there is none, and the panic in flight afterwards,
    which is none. *)
Definition recover (panicking : option panicValue)
  : panicValue * option panicValue :=
  match panicking with
  | Some v => (v, None)
  | None => (None, None)
  end.

(** The deferred function of line 45:
    [if r := recover(); r != nil && w.Logger != nil { w.Logger.Warn(...) }].
    The second component is the panic still in flight afterwards. *)
Definition renewDeferred (w : WUID) (panicking : option panicValue)
  : list LogCall * option panicValue :=
  let '(r, after) := recover panicking in
  match r, Logger_ w with
  | Some txt, Some _ =>
      ([Warn ("[wuid] panic. tag: " ++ Tag w ++ ", reason: " ++ txt)%string], after)
  | _, _ => ([], after)
  end.

(** One run of the goroutine started by [Next]: final state, the calls
    made on the logger, and the panic that escapes the goroutine. *)
Definition renewTask (w : WUID) (renew : option callback) (reply : Z)
  : WUID * list LogCall * option panicValue :=
  let '(w', logs, p) := renewBody w renew reply in
  let '(logs', p') := renewDeferred w p in
  (w', (logs ++ logs')%list, p').

(** ** Observations on an identifier *)

(** The 40-bit counter and the 24 bits above it. *)
Definition low40 (x : Z) : Z := Z.land x 0xFFFFFFFFFF.
Definition high24 (x : Z) : Z := Z.shiftr x 40.

(** The layout of a sharded identifier as [Reset] writes it: the section
    in bits 60..63, twenty bits of epoch in bits 40..59. *)
Definition top4 (x : Z) : Z := Z.shiftr x 60.
Definition low60 (x : Z) : Z := Z.land x 0x0FFFFFFFFFFFFFFF.
Definition mid20 (x : Z) : Z := Z.land (Z.shiftr x 40) 0x0FFFFF.

(** ** Epoch installs and reachable states *)

(** Modelled from the spec: the renewal callback is an external
    collaborator whose code is not part of the generator.  Its contract
    (external interfaces, renewal callback) is to pass the epoch obtained
    from the coordinator through [VerifyH24] and, on success, to call
    [Reset] with the epoch combined with an initial counter, typically
    [epoch << 40]. *)
Definition install (w : WUID) (h24 counter : Z) : option WUID :=
  match VerifyH24 w h24 with
  | Some _ => None
  | None => Some (Reset w (wrap64 (Z.shiftl h24 40) + counter))
  end.

(** The states a generator goes through: construction, then calls of
    [Next] and validated installs in any order. *)
Inductive reachable : WUID -> Prop :=
| reach_construct (tag : string) (logger : Logger) (sections : list Z) (w : WUID) :
    Forall uint8 sections ->
    construct tag logger sections = Ok w -> reachable w
| reach_Next (w : WUID) :
    reachable w -> reachable (NextState w)
| reach_install (w w' : WUID) (h24 counter : Z) :
    reachable w -> uint64 h24 -> 0 <= counter < 2 ^ 40 ->
    install w h24 counter = Some w' -> reachable w'.

(** The layout the data-model invariant describes: a non-zero epoch in
    the highest bits, 24 bits wide when unsharded and 20 bits wide when
    sharded, and, when sharded, the section in the 4 bits immediately
    below the epoch. *)
Definition epochThenTag (w : WUID) : Prop :=
  if Section_ w =? 0
  then Z.shiftr (N w) 40 <> 0
  else Z.shiftr (N w) 44 <> 0 /\ Z.land (Z.shiftr (N w) 40) 0xF = Section_ w.

(** ** Observations on a run of the renewal goroutine *)

Definition taskLogs (w : WUID) (renew : option callback) (reply : Z)
  : list LogCall :=
  snd (fst (renewTask w renew reply)).
Definition taskEscaped (w : WUID) (renew : option callback) (reply : Z)
  : option panicValue :=
  snd (renewTask w renew reply).

(** [part] occurs in [msg]. *)
Definition contains (msg part : string) : Prop :=
  exists pre post : string, msg = (pre ++ part ++ post)%string.

(** * Arithmetic of masks and shifts *)

Section BitFacts.

Lemma pow2_pos (k : Z) : 0 <= k -> 0 < 2 ^ k.
Proof. intros; apply Z.pow_pos_nonneg; lia. Qed.

Lemma land_ones_mod (x k : Z) : 0 <= k -> Z.land x (Z.ones k) = x mod 2 ^ k.
Proof. apply Z.land_ones. Qed.

Lemma land_low_shifted (lo hi k : Z) :
  0 <= k -> 0 <= lo < 2 ^ k -> Z.land lo (Z.shiftl hi k) = 0.
Proof.
  intros Hk Hlo. apply Z.bits_inj'. intros i Hi.
  rewrite Z.land_spec, Z.bits_0.
  destruct (Z.ltb_spec i k) as [Hlt | Hge].
  - rewrite (Z.shiftl_spec_low hi k i Hlt). apply andb_false_r.
  - replace lo with (lo mod 2 ^ k) by (apply Z.mod_small; lia).
    rewrite Z.mod_pow2_bits_high by lia. reflexivity.
Qed.

Lemma lor_low_shifted (lo hi k : Z) :
  0 <= k -> 0 <= lo < 2 ^ k ->
  Z.lor lo (Z.shiftl hi k) = lo + hi * 2 ^ k.
Proof.
  intros Hk Hlo.
  pose proof (Z.add_lor_land lo (Z.shiftl hi k)) as H.
  rewrite (land_low_shifted lo hi k Hk Hlo) in H.
  rewrite <- (Z.shiftl_mul_pow2 hi k Hk). lia.
Qed.

Lemma split_div (lo hi k : Z) :
  0 <= k -> 0 <= lo < 2 ^ k -> (lo + hi * 2 ^ k) / 2 ^ k = hi.
Proof.
  intros Hk Hlo. pose proof (pow2_pos k Hk).
  rewrite Z.div_add by lia. rewrite Z.div_small by lia. lia.
Qed.

Lemma split_mod (lo hi k : Z) :
  0 <= k -> 0 <= lo < 2 ^ k -> (lo + hi * 2 ^ k) mod 2 ^ k = lo.
Proof.
  intros Hk Hlo. pose proof (pow2_pos k Hk).
  rewrite Z.mod_add by lia. apply Z.mod_small; lia.
Qed.

Lemma wrap64_range (x : Z) : uint64 (wrap64 x).
Proof. unfold uint64, wrap64. apply Z.mod_pos_bound. reflexivity. Qed.

Lemma wrap64_small (x : Z) : uint64 x -> wrap64 x = x.
Proof. unfold uint64, wrap64. intros. apply Z.mod_small; lia. Qed.

Lemma wrap64_add_idem (x y : Z) : wrap64 (wrap64 x + y) = wrap64 (x + y).
Proof. unfold wrap64. apply Zplus_mod_idemp_l. Qed.

(** Two offsets less than [2^64] apart that wrap to the same value are
    equal. *)
Lemma wrap64_offset_inj (a i j : Z) :
  - 2 ^ 64 < i - j < 2 ^ 64 ->
  wrap64 (a + i) = wrap64 (a + j) -> i = j.
Proof.
  unfold wrap64. intros Hij E.
  pose proof (Z.div_mod (a + i) (2 ^ 64) ltac:(lia)) as Di.
  pose proof (Z.div_mod (a + j) (2 ^ 64) ltac:(lia)) as Dj.
  rewrite E in Di.
  assert ((a + i) / 2 ^ 64 = (a + j) / 2 ^ 64) by lia.
  lia.
Qed.

End BitFacts.

(** * The counter: [Next] *)

Lemma NextValue_eq (w : WUID) : NextValue w = wrap64 (N w + 1).
Proof. unfold NextValue, Next. destruct (renewDue _); reflexivity. Qed.

Lemma NextState_eq (w : WUID) : NextState w = setN w (wrap64 (N w + 1)).
Proof. unfold NextState, Next. destruct (renewDue _); reflexivity. Qed.

Lemma NextSpawn_eq (w : WUID) :
  NextSpawn w = if renewDue (NextValue w) then Some (Renew w) else None.
Proof.
  rewrite NextValue_eq. unfold NextSpawn, Next.
  destruct (renewDue _); reflexivity.
Qed.

Lemma NextN_values (n : nat) : forall w : WUID,
  fst (NextN n w) = map (fun i => wrap64 (N w + Z.of_nat i)) (seq 1 n).
Proof.
  induction n as [| n IH]; intros w; [reflexivity |].
  cbn [NextN]. destruct (NextN n (NextState w)) as [xs w'] eqn:E.
  cbn [fst seq map]. f_equal.
  - apply NextValue_eq.
  - pose proof (IH (NextState w)) as IH'. rewrite E in IH'. cbn [fst] in IH'.
    rewrite IH', <- (seq_shift n 1), map_map. apply map_ext. intros i.
    rewrite NextState_eq. cbn [N setN].
    rewrite wrap64_add_idem. f_equal. lia.
Qed.

Lemma NextN_state (n : nat) : forall w : WUID,
  uint64 (N w) ->
  snd (NextN n w) = setN w (wrap64 (N w + Z.of_nat n)).
Proof.
  induction n as [| n IH]; intros w Hw.
  - cbn. rewrite Z.add_0_r, wrap64_small by assumption. destruct w; reflexivity.
  - cbn [NextN]. destruct (NextN n (NextState w)) as [xs w'] eqn:E.
    cbn [snd]. pose proof (IH (NextState w)) as IH'. rewrite E in IH'.
    cbn [snd] in IH'. rewrite IH'.
    + rewrite NextState_eq. unfold setN; cbn [N Section_ Tag Logger_ Renew].
      rewrite wrap64_add_idem. do 2 f_equal. lia.
    + rewrite NextState_eq. cbn [N setN]. apply wrap64_range.
Qed.

(** C1. [Next] stores [value + 1] modulo [2^64] into [N] and returns the
    stored value.  The values returned by [n] consecutive calls are
    [initial + 1, ..., initial + n] modulo [2^64], in this order; they are
    pairwise different as long as [n <= 2^64], and are the integers
    [initial + 1, ..., initial + n] themselves when the addition does not
    wrap. *)
Theorem Next_sequence (w : WUID) (n : nat) :
  (N (NextState w) = wrap64 (N w + 1) /\ NextValue w = N (NextState w)) /\
  fst (NextN n w) = map (fun i => wrap64 (N w + Z.of_nat i)) (seq 1 n) /\
  (Z.of_nat n <= 2 ^ 64 -> NoDup (fst (NextN n w))) /\
  (uint64 (N w) -> N w + Z.of_nat n < 2 ^ 64 ->
   fst (NextN n w) = map (fun i => N w + Z.of_nat i) (seq 1 n)).
Proof.
  split; [| split; [| split]].
  - rewrite NextValue_eq, NextState_eq. split; reflexivity.
  - apply NextN_values.
  - intros Hn. rewrite NextN_values.
    apply NoDup_map_NoDup_ForallPairs; [| apply seq_NoDup].
    intros i j Hi Hj E. apply in_seq in Hi, Hj.
    apply wrap64_offset_inj in E; lia.
  - intros Hw Hn. rewrite NextN_values. apply map_ext_in.
    intros i Hi. apply in_seq in Hi. apply wrap64_small.
    unfold uint64 in *. lia.
Qed.

Lemma Next_sequence_witness :
  let w := mkWUID 0 41 "t" None None in
  Z.of_nat 3 <= 2 ^ 64 /\ uint64 (N w) /\ N w + Z.of_nat 3 < 2 ^ 64 /\
  NoDup (fst (NextN 3 w)) /\ fst (NextN 3 w) = [42; 43; 44].
Proof.
  intros w.
  assert (H3 : Z.of_nat 3 <= 2 ^ 64) by (vm_compute; discriminate).
  assert (Hw : uint64 (N w)) by (vm_compute; split; [discriminate | reflexivity]).
  assert (Hlt : N w + Z.of_nat 3 < 2 ^ 64) by (vm_compute; reflexivity).
  destruct (Next_sequence w 3) as (_ & _ & Hnd & Hex).
  split; [exact H3 |]. split; [exact Hw |]. split; [exact Hlt |]. split.
  - apply Hnd, H3.
  - rewrite (Hex Hw Hlt). reflexivity.
Defined.

(** C2. [Next] starts a renewal goroutine exactly when the incremented
    value [x] has [x & 0xFFFFFFFFFF >= CriticalValue] and
    [x & RenewInterval = 0]; the goroutine carries the callback read from
    [Renew].  [CriticalValue] is [floor (2^40 * 8 / 10)] and
    [RenewInterval] is [0x01FFFFFFFF]. *)
Theorem Next_renew_trigger (w : WUID) :
  let x := NextValue w in
  (NextSpawn w = Some (Renew w) <->
   CriticalValue <= Z.land x 0xFFFFFFFFFF /\ Z.land x RenewInterval = 0) /\
  (NextSpawn w = None <->
   ~ (CriticalValue <= Z.land x 0xFFFFFFFFFF /\ Z.land x RenewInterval = 0)) /\
  CriticalValue = 879609302220 /\
  10 * CriticalValue <= 8 * 2 ^ 40 < 10 * (CriticalValue + 1) /\
  RenewInterval = 0x01FFFFFFFF.
Proof.
  intros x. subst x. rewrite NextSpawn_eq.
  set (x := NextValue w). unfold renewDue.
  assert (HC : CriticalValue = 879609302220) by reflexivity.
  repeat split; try (rewrite HC; lia); try reflexivity.
  - destruct (Z.leb_spec CriticalValue (Z.land x 0xFFFFFFFFFF)); [assumption |].
    cbn in H. discriminate.
  - destruct (Z.leb_spec CriticalValue (Z.land x 0xFFFFFFFFFF)); cbn [andb] in H;
      [| discriminate].
    destruct (Z.eqb_spec (Z.land x RenewInterval) 0); [assumption | discriminate].
  - intros [H1 H2]. apply Z.leb_le in H1. apply Z.eqb_eq in H2.
    rewrite H1, H2. reflexivity.
  - intros H [H1 H2]. apply Z.leb_le in H1. apply Z.eqb_eq in H2.
    rewrite H1, H2 in H. discriminate.
  - intros H.
    destruct (Z.leb_spec CriticalValue (Z.land x 0xFFFFFFFFFF)); cbn [andb];
      [| reflexivity].
    destruct (Z.eqb_spec (Z.land x RenewInterval) 0); [| reflexivity].
    exfalso. apply H. split; assumption.
Qed.

Lemma Next_renew_trigger_witness :
  let w := mkWUID 0 884763262975 "t" None None in
  NextValue w = 884763262976 /\ NextSpawn w = Some (Renew w).
Proof.
  intros w. split; [reflexivity |].
  apply (proj1 (Next_renew_trigger w)).
  split; vm_compute; [discriminate | reflexivity].
Defined.

(** * The epoch validator: [VerifyH24] *)

(** C3. [VerifyH24] returns an error exactly when [h24] is 0, or exceeds
    [0xFFFFFF] on an unsharded generator, or exceeds [0x0FFFFF] on a
    sharded one; every other input is accepted.  The function is total:
    it has no panicking path. *)
Theorem VerifyH24_error_iff (w : WUID) (h24 : Z) :
  (VerifyH24 w h24 <> None <->
   h24 = 0 \/
   (Section_ w = 0 /\ 0xFFFFFF < h24) \/
   (Section_ w <> 0 /\ 0x0FFFFF < h24)) /\
  (h24 <> 0 ->
   (if Section_ w =? 0 then h24 <= 0xFFFFFF else h24 <= 0x0FFFFF) ->
   VerifyH24 w h24 = None).
Proof.
  unfold VerifyH24.
  destruct (Z.eqb_spec h24 0) as [H0 | H0];
    destruct (Z.eqb_spec (Section_ w) 0) as [Hs | Hs];
    destruct (Z.ltb_spec 0xFFFFFF h24) as [H24 | H24];
    destruct (Z.ltb_spec 0x0FFFFF h24) as [H20 | H20];
    (split; [split; [intros H; try (exfalso; apply H; reflexivity) | intros H] |]);
    try discriminate; try tauto; try lia.
Qed.

Lemma VerifyH24_error_iff_witness :
  VerifyH24 (mkWUID 0 0 "t" None None) 0xFFFFFF = None /\
  VerifyH24 (mkWUID 5 0 "t" None None) 0x100000 <> None.
Proof.
  split.
  - apply (proj2 (VerifyH24_error_iff (mkWUID 0 0 "t" None None) 0xFFFFFF)).
    + discriminate.
    + vm_compute. discriminate.
  - apply (proj1 (VerifyH24_error_iff (mkWUID 5 0 "t" None None) 0x100000)).
    right; right. split; [discriminate | reflexivity].
Defined.

(** * The epoch install: [Reset] *)

Lemma section_shift_fits (s : Z) :
  1 <= s <= 15 -> wrap64 (Z.shiftl s 60) = Z.shiftl s 60.
Proof.
  intros Hs. apply wrap64_small. unfold uint64.
  rewrite Z.shiftl_mul_pow2 by lia. lia.
Qed.

Lemma Reset_sharded_value (w : WUID) (n : Z) :
  1 <= Section_ w <= 15 ->
  N (Reset w n) = n mod 2 ^ 60 + Section_ w * 2 ^ 60.
Proof.
  intros Hs. unfold Reset.
  destruct (Z.eqb_spec (Section_ w) 0) as [E | _]; [lia |].
  cbn [N setN]. rewrite section_shift_fits by assumption.
  change 0x0FFFFFFFFFFFFFFF with (Z.ones 60).
  rewrite land_ones_mod by lia.
  apply lor_low_shifted; [lia |].
  apply Z.mod_pos_bound. reflexivity.
Qed.

(** C4. On an unsharded generator [Reset n] stores [n] as it is.  On a
    generator whose section [s] is in [1, 15] it stores
    [(n & 0x0FFFFFFFFFFFFFFF) | (s << 60)]: the top 4 bits of the stored
    value are [s] whatever the top 4 bits of [n] are, and its low 60 bits
    are the low 60 bits of [n]. *)
Theorem Reset_stores (w : WUID) (n : Z) :
  (Section_ w = 0 -> N (Reset w n) = n) /\
  (1 <= Section_ w <= 15 ->
   N (Reset w n) = Z.lor (Z.land n 0x0FFFFFFFFFFFFFFF) (Z.shiftl (Section_ w) 60) /\
   top4 (N (Reset w n)) = Section_ w /\
   low60 (N (Reset w n)) = low60 n /\
   uint64 (N (Reset w n))).
Proof.
  split.
  - intros Hs. unfold Reset. rewrite Hs. reflexivity.
  - intros Hs.
    assert (Hlo : 0 <= n mod 2 ^ 60 < 2 ^ 60) by (apply Z.mod_pos_bound; reflexivity).
    split; [| split; [| split]].
    + unfold Reset.
      destruct (Z.eqb_spec (Section_ w) 0) as [E | _]; [lia |].
      cbn [N setN]. rewrite section_shift_fits by assumption. reflexivity.
    + unfold top4. rewrite Reset_sharded_value by assumption.
      rewrite Z.shiftr_div_pow2 by lia. apply split_div; [lia | assumption].
    + unfold low60. rewrite Reset_sharded_value by assumption.
      change 0x0FFFFFFFFFFFFFFF with (Z.ones 60).
      rewrite !land_ones_mod by lia. apply split_mod; [lia | assumption].
    + rewrite Reset_sharded_value by assumption. unfold uint64. lia.
Qed.

Lemma Reset_stores_witness :
  let w := mkWUID 5 7 "t" None None in
  let n := 0xF000000000000123 in
  1 <= Section_ w <= 15 /\
  top4 (N (Reset w n)) = 5 /\ low60 (N (Reset w n)) = 0x123 /\
  N (Reset (mkWUID 0 7 "t" None None) n) = n.
Proof.
  intros w n.
  assert (Hs : 1 <= Section_ w <= 15) by (vm_compute; split; discriminate).
  destruct (proj2 (Reset_stores w n) Hs) as (_ & Ht & Hl & _).
  split; [exact Hs |]. split; [exact Ht |]. split.
  - rewrite Hl. reflexivity.
  - apply (proj1 (Reset_stores (mkWUID 0 7 "t" None None) n)). reflexivity.
Defined.

(** * Configuration: [WithSection] *)

Lemma WithSection_cases (s : Z) :
  WithSection s = Panicked sectionPanic \/
  WithSection s = Ok (fun w => setSection w s).
Proof.
  unfold WithSection.
  destruct ((s =? 0) || (16 <=? s)); [left | right]; reflexivity.
Qed.

Lemma WithSection_invalid (s : Z) :
  s = 0 \/ 16 <= s -> WithSection s = Panicked sectionPanic.
Proof.
  intros H. unfold WithSection.
  destruct (Z.eqb_spec s 0) as [E | E]; [reflexivity |].
  destruct (Z.leb_spec 16 s); [reflexivity | lia].
Qed.

Lemma WithSection_valid (s : Z) :
  1 <= s <= 15 -> WithSection s = Ok (fun w => setSection w s).
Proof.
  intros H. unfold WithSection.
  destruct (Z.eqb_spec s 0) as [E | E]; [lia |].
  destruct (Z.leb_spec 16 s); [lia | reflexivity].
Qed.

Lemma evalSections_invalid (s : Z) (sections : list Z) :
  s = 0 \/ 16 <= s -> In s sections ->
  evalSections sections = Panicked sectionPanic.
Proof.
  intros Hs. induction sections as [| s' rest IH]; intros Hin; [destruct Hin |].
  cbn [evalSections].
  destruct (WithSection_cases s') as [E | E]; rewrite E; cbn [bind];
    [reflexivity |].
  destruct Hin as [-> | Hin].
  - rewrite (WithSection_invalid s Hs) in E. discriminate.
  - rewrite (IH Hin). reflexivity.
Qed.

(** The options built by [WithSection] leave [N] alone. *)
Lemma evalSections_keep_N (sections : list Z) : forall (opts : list Option) (w : WUID),
  evalSections sections = Ok opts ->
  N (fold_left (fun w opt => opt w) opts w) = N w.
Proof.
  induction sections as [| s rest IH]; intros opts w H; cbn [evalSections] in H.
  - injection H as <-. reflexivity.
  - destruct (WithSection_cases s) as [E | E]; rewrite E in H; cbn [bind] in H;
      [discriminate |].
    destruct (evalSections rest) as [os | msg] eqn:Er; cbn [bind] in H;
      [| discriminate].
    injection H as <-. cbn [fold_left]. rewrite (IH os _ eq_refl). reflexivity.
Qed.

(** C5. [WithSection] panics on a section that is 0 or at least 16, so a
    construction call that mentions such a section panics while its
    arguments are evaluated: no generator is returned and no identifier
    can be issued.  A section in [1, 15] is accepted, and the option
    stores it unchanged in the [Section] field. *)
Theorem WithSection_range (s : Z) (tag : string) (logger : Logger) :
  (s = 0 \/ 16 <= s ->
   WithSection s = Panicked sectionPanic /\
   forall sections, In s sections ->
     construct tag logger sections = Panicked sectionPanic) /\
  (1 <= s <= 15 ->
   exists opt, WithSection s = Ok opt /\
     (forall w, Section_ (opt w) = s /\ N (opt w) = N w) /\
     construct tag logger [s] = Ok (mkWUID s 0 tag logger None)).
Proof.
  split.
  - intros Hs. split; [apply WithSection_invalid, Hs |].
    intros sections Hin. unfold construct.
    rewrite (evalSections_invalid s sections Hs Hin). reflexivity.
  - intros Hs. exists (fun w => setSection w s).
    split; [apply WithSection_valid, Hs |]. split.
    + intros w. split; reflexivity.
    + unfold construct. cbn [evalSections].
      rewrite (WithSection_valid s Hs). reflexivity.
Qed.

Lemma WithSection_range_witness :
  WithSection 0 = Panicked sectionPanic /\
  construct "t" None [3; 16] = Panicked sectionPanic /\
  construct "t" None [15] = Ok (mkWUID 15 0 "t" None None).
Proof.
  split; [| split].
  - apply (proj1 (WithSection_range 0 "t" None)). left. reflexivity.
  - apply (proj1 (WithSection_range 16 "t" None)).
    + right. vm_compute. discriminate.
    + right. left. reflexivity.
  - destruct (proj2 (WithSection_range 15 "t" None)) as (opt & _ & _ & H).
    + split; vm_compute; discriminate.
    + exact H.
Defined.

(** * The counter and the bits above it *)

Lemma uint64_split (x : Z) :
  uint64 x ->
  x = x mod 2 ^ 40 + (x / 2 ^ 40) * 2 ^ 40 /\
  0 <= x mod 2 ^ 40 < 2 ^ 40 /\ 0 <= x / 2 ^ 40 < 2 ^ 24.
Proof.
  unfold uint64. intros Hx.
  pose proof (Z.div_mod x (2 ^ 40) ltac:(lia)) as D.
  pose proof (Z.mod_pos_bound x (2 ^ 40) ltac:(lia)) as B.
  split; [lia |]. split; [exact B |].
  split; [apply Z.div_pos; lia |].
  apply Z.div_lt_upper_bound; lia.
Qed.

Lemma low40_mod (x : Z) : low40 x = x mod 2 ^ 40.
Proof.
  unfold low40. change 0xFFFFFFFFFF with (Z.ones 40).
  apply land_ones_mod. lia.
Qed.

Lemma high24_div (x : Z) : high24 x = x / 2 ^ 40.
Proof. unfold high24. apply Z.shiftr_div_pow2. lia. Qed.

(** The claim of C6 as it is written fails where the counter is at its
    last value: the increment carries into bit 40. *)
Lemma Next_high_bits_counterexample :
  let w := mkWUID 0 0xFFFFFFFFFF "t" None None in
  uint64 (N w) /\
  high24 (N w) = 0 /\ high24 (N (NextState w)) = 1 /\
  high24 (N (NextState w)) <> high24 (N w).
Proof.
  intros w. split; [| split; [| split]].
  - vm_compute. split; [discriminate | reflexivity].
  - reflexivity.
  - reflexivity.
  - vm_compute. discriminate.
Qed.

(** C6 (amended). A call of [Next] leaves the bits above the low 40
    unchanged, and adds one to the counter, whenever the counter is not
    at its last value [0xFFFFFFFFFF]; from that value the counter goes to
    0 and the carry adds one, modulo [2^24], to the 24 bits above it.  In
    both cases [Section] is left as it is. *)
Theorem Next_high_bits (w : WUID) :
  uint64 (N w) ->
  (low40 (N w) <> 0xFFFFFFFFFF ->
   high24 (N (NextState w)) = high24 (N w) /\
   low40 (N (NextState w)) = low40 (N w) + 1) /\
  (low40 (N w) = 0xFFFFFFFFFF ->
   high24 (N (NextState w)) = (high24 (N w) + 1) mod 2 ^ 24 /\
   low40 (N (NextState w)) = 0) /\
  Section_ (NextState w) = Section_ w.
Proof.
  intros Hw. rewrite NextState_eq. cbn [N setN Section_].
  rewrite !low40_mod, !high24_div.
  destruct (uint64_split (N w) Hw) as (D & Hl & Hh).
  set (l := N w mod 2 ^ 40) in *. set (h := N w / 2 ^ 40) in *.
  split; [| split; [| reflexivity]].
  - intros Hne.
    rewrite wrap64_small by (unfold uint64; lia).
    replace (N w + 1) with ((l + 1) + h * 2 ^ 40) by lia.
    rewrite split_div, split_mod by lia. split; reflexivity.
  - intros He. unfold wrap64.
    replace (N w + 1) with ((h + 1) * 2 ^ 40) by lia.
    change (2 ^ 64) with (2 ^ 24 * 2 ^ 40).
    rewrite Z.mul_mod_distr_r by lia.
    rewrite Z.div_mul, Z.mod_mul by lia. split; reflexivity.
Qed.

Lemma Next_high_bits_witness :
  let w := mkWUID 0 0x1FFFFFFFFFF "t" None None in
  uint64 (N w) /\ low40 (N w) = 0xFFFFFFFFFF /\
  high24 (N (NextState w)) = 2 /\ low40 (N (NextState w)) = 0.
Proof.
  intros w.
  assert (Hw : uint64 (N w)) by (vm_compute; split; [discriminate | reflexivity]).
  assert (Hl : low40 (N w) = 0xFFFFFFFFFF) by reflexivity.
  destruct (Next_high_bits w Hw) as (_ & Hc & _).
  destruct (Hc Hl) as [Hh Hz].
  split; [exact Hw |]. split; [exact Hl |]. split.
  - rewrite Hh. reflexivity.
  - exact Hz.
Defined.

(** * The renewal throttle *)

Lemma RenewInterval_ones : RenewInterval = Z.ones 33.
Proof. reflexivity. Qed.

Lemma throttle_mod (x : Z) : Z.land x RenewInterval = x mod 2 ^ 33.
Proof. rewrite RenewInterval_ones. apply land_ones_mod. lia. Qed.

Lemma wrap64_mod33 (x : Z) : wrap64 x mod 2 ^ 33 = x mod 2 ^ 33.
Proof.
  unfold wrap64. apply Z.mod_mod_divide.
  exists (2 ^ 31). reflexivity.
Qed.

(** C7, as the specification states it, fails: [RenewInterval] has 33
    bits set, not 37.  The throttle condition already holds at [2^33],
    where a 37-bit mask would not be clear, and the window
    [RenewInterval + 1] is a quarter of [2^35], about 34 billion. *)
Lemma RenewInterval_counterexample :
  RenewInterval <> Z.ones 37 /\
  Z.testbit RenewInterval 33 = false /\
  (let x := 2 ^ 33 in
   Z.land x RenewInterval = 0 /\ Z.land x (Z.ones 37) <> 0) /\
  4 * (RenewInterval + 1) = 34359738368.
Proof.
  split; [| split; [| split]].
  - vm_compute. discriminate.
  - reflexivity.
  - split; vm_compute; [reflexivity | discriminate].
  - reflexivity.
Qed.

(** C7 (amended). [RenewInterval = 0x01FFFFFFFF] is a 33-bit mask: the
    throttle condition [x & RenewInterval = 0] says that [x] is a
    multiple of [2^33], and it holds for exactly one of every
    [RenewInterval + 1 = 8589934592] consecutive increments, about one
    renewal attempt per 8.6 billion identifiers. *)
Theorem RenewInterval_window (v : Z) :
  RenewInterval = Z.ones 33 /\
  RenewInterval + 1 = 8589934592 /\
  (forall x, Z.land x RenewInterval = 0 <-> x mod 2 ^ 33 = 0) /\
  exists! i, 1 <= i <= RenewInterval + 1 /\
             Z.land (wrap64 (v + i)) RenewInterval = 0.
Proof.
  split; [reflexivity |]. split; [reflexivity |]. split.
  - intros x. rewrite throttle_mod. reflexivity.
  - change (RenewInterval + 1) with (2 ^ 33).
    pose proof (Z.mod_pos_bound v (2 ^ 33) ltac:(lia)) as Bv.
    pose proof (Z.div_mod v (2 ^ 33) ltac:(lia)) as Dv.
    exists (2 ^ 33 - v mod 2 ^ 33). split.
    + split; [lia |].
      rewrite throttle_mod, wrap64_mod33.
      replace (v + (2 ^ 33 - v mod 2 ^ 33))
        with ((v / 2 ^ 33 + 1) * 2 ^ 33) by lia.
      apply Z.mod_mul. lia.
    + intros j [Hj Ej]. rewrite throttle_mod, wrap64_mod33 in Ej.
      pose proof (Z.div_mod (v + j) (2 ^ 33) ltac:(lia)) as Dj.
      rewrite Ej in Dj.
      assert ((v + j) / 2 ^ 33 = v / 2 ^ 33 + 1) by lia.
      lia.
Qed.

Lemma RenewInterval_window_witness :
  exists i, 1 <= i <= RenewInterval + 1 /\
            Z.land (wrap64 (884763262970 + i)) RenewInterval = 0.
Proof.
  destruct (RenewInterval_window 884763262970) as (_ & _ & _ & i & Hi & _).
  exists i. exact Hi.
Defined.

(** * Reachable states and the identifier layout *)

Lemma WithSection_ok (s : Z) (opt : Option) :
  uint8 s -> WithSection s = Ok opt ->
  1 <= s <= 15 /\ opt = (fun w => setSection w s).
Proof.
  unfold uint8, WithSection. intros Hs H.
  destruct (Z.eqb_spec s 0); [discriminate |].
  destruct (Z.leb_spec 16 s); [discriminate |].
  cbn [orb] in H. injection H as <-. split; [lia | reflexivity].
Qed.

Lemma evalSections_section (sections : list Z) :
  Forall uint8 sections ->
  forall (opts : list Option) (w : WUID),
    evalSections sections = Ok opts ->
    0 <= Section_ w <= 15 ->
    0 <= Section_ (fold_left (fun w opt => opt w) opts w) <= 15.
Proof.
  induction 1 as [| s rest Hs Hrest IH]; intros opts w H Hw;
    cbn [evalSections] in H.
  - injection H as <-. exact Hw.
  - destruct (WithSection s) as [o | msg] eqn:E; cbn [bind] in H;
      [| discriminate].
    destruct (evalSections rest) as [os | msg] eqn:Er; cbn [bind] in H;
      [| discriminate].
    injection H as <-. cbn [fold_left].
    destruct (WithSection_ok s o Hs E) as [Hr ->].
    apply (IH os _ eq_refl). cbn [Section_ setSection]. lia.
Qed.

Lemma Reset_Section (w : WUID) (n : Z) : Section_ (Reset w n) = Section_ w.
Proof. unfold Reset. destruct (Section_ w =? 0); reflexivity. Qed.

Lemma install_Section (w w' : WUID) (h24 c : Z) :
  install w h24 c = Some w' -> Section_ w' = Section_ w.
Proof.
  unfold install. destruct (VerifyH24 w h24); [discriminate |].
  intros H. injection H as <-. apply Reset_Section.
Qed.

Lemma reachable_Section (w : WUID) : reachable w -> 0 <= Section_ w <= 15.
Proof.
  induction 1 as [tag logger sections w Hs Hc | w Hw IH | w w' h24 c Hw IH Hh Hc Hi].
  - unfold construct in Hc.
    destruct (evalSections sections) as [opts | msg] eqn:E; cbn [bind] in Hc;
      [| discriminate].
    injection Hc as <-. unfold NewWUID.
    apply (evalSections_section sections Hs opts _ E). cbn [Section_]. lia.
  - rewrite NextState_eq. exact IH.
  - rewrite (install_Section _ _ _ _ Hi). exact IH.
Qed.

Lemma NextN_reachable (k : nat) : forall w : WUID,
  reachable w -> reachable (snd (NextN k w)).
Proof.
  induction k as [| k IH]; intros w Hw; [exact Hw |].
  cbn [NextN]. destruct (NextN k (NextState w)) as [xs w'] eqn:E.
  cbn [snd]. pose proof (IH (NextState w) (reach_Next w Hw)) as H.
  rewrite E in H. exact H.
Qed.

Lemma VerifyH24_ok (w : WUID) (h24 : Z) :
  VerifyH24 w h24 = None ->
  h24 <> 0 /\
  (Section_ w = 0 -> h24 <= 0xFFFFFF) /\
  (Section_ w <> 0 -> h24 <= 0x0FFFFF).
Proof.
  unfold VerifyH24.
  destruct (Z.eqb_spec h24 0); [discriminate |].
  destruct (Z.eqb_spec (Section_ w) 0);
    [destruct (Z.ltb_spec 0xFFFFFF h24) | destruct (Z.ltb_spec 0x0FFFFF h24)];
    try discriminate; intros _; repeat split; try assumption; try lia.
Qed.

(** The value a validated install stores: counter, epoch above it, and
    the section above the twenty epoch bits of a sharded generator. *)
Lemma install_value (w w' : WUID) (h24 c : Z) :
  0 <= Section_ w <= 15 -> uint64 h24 -> 0 <= c < 2 ^ 40 ->
  install w h24 c = Some w' ->
  N w' = c + (h24 + Section_ w * 2 ^ 20) * 2 ^ 40.
Proof.
  unfold uint64, install. intros Hs Hh Hc H.
  destruct (VerifyH24 w h24) eqn:V; [discriminate |].
  assert (E' : w' = Reset w (wrap64 (Z.shiftl h24 40) + c)) by congruence.
  subst w'. clear H.
  destruct (VerifyH24_ok w h24 V) as (Hnz & Hu & Hsh).
  assert (Hw : wrap64 (Z.shiftl h24 40) = h24 * 2 ^ 40).
  { rewrite Z.shiftl_mul_pow2 by lia. apply wrap64_small. unfold uint64.
    destruct (Z.eq_dec (Section_ w) 0) as [E | E];
      [specialize (Hu E) | specialize (Hsh E)]; lia. }
  rewrite Hw.
  destruct (Z.eq_dec (Section_ w) 0) as [E | E].
  - unfold Reset. rewrite E. cbn [Z.eqb N setN]. lia.
  - specialize (Hsh E). rewrite Reset_sharded_value by lia.
    rewrite Z.mod_small by lia. lia.
Qed.

Lemma reachable_fresh (tag : string) (logger : Logger) (s : Z) :
  1 <= s <= 15 ->
  reachable (mkWUID 0 0 tag logger None) /\
  reachable (mkWUID s 0 tag logger None).
Proof.
  intros Hs. split.
  - apply (reach_construct tag logger []); [constructor | reflexivity].
  - apply (reach_construct tag logger [s]).
    + constructor; [unfold uint8; lia | constructor].
    + unfold construct. cbn [evalSections].
      rewrite (WithSection_valid s Hs). reflexivity.
Qed.

(** C8, as the specification states it, fails in three ways.  A freshly
    constructed generator holds 0: its epoch bits are zero until the
    first install.  On a sharded generator [Reset] writes the section
    into bits 60..63, above the twenty epoch bits, not below them.  And
    a counter that runs past [0xFFFFFFFFFF] carries into the epoch bits,
    which can wrap to zero. *)
Lemma epochThenTag_counterexample :
  (reachable (NewWUID "t" None []) /\ ~ epochThenTag (NewWUID "t" None [])) /\
  (let w := mkWUID 5 0x5000010000000000 "t" None None in
   reachable w /\ top4 (N w) = 5 /\ mid20 (N w) = 1 /\ ~ epochThenTag w) /\
  (let w := NextState (mkWUID 0 0xFFFFFFFFFFFFFFFF "t" None None) in
   reachable w /\ N w = 0 /\ ~ epochThenTag w).
Proof.
  assert (H5 : 1 <= 5 <= 15) by lia.
  destruct (reachable_fresh "t" None 5 H5) as [R0 R5].
  split; [| split].
  - split; [exact R0 |].
    intros H. apply H. reflexivity.
  - intros w. split; [| split; [| split]]; try reflexivity.
    + apply (reach_install (mkWUID 5 0 "t" None None) w 1 0 R5);
        [unfold uint64; lia | lia | reflexivity].
    + intros [_ H]. vm_compute in H. discriminate.
  - intros w. split; [| split]; try reflexivity.
    + apply reach_Next.
      apply (reach_install (mkWUID 0 0 "t" None None) _ 0xFFFFFF 0xFFFFFFFFFF R0);
        [unfold uint64; lia | lia | reflexivity].
    + intros H. apply H. reflexivity.
Qed.

(** C8 (amended). In a state reached from a validated install of the
    epoch [h24] with initial counter [c] by [k] calls of [Next] that keep
    the counter below [2^40], the epoch is non-zero and the bits above
    the 40-bit counter encode it: on an unsharded generator the 24 bits
    40..63 hold [h24]; on a sharded generator the 4 bits 60..63 hold the
    section and the 20 bits 40..59, below the section, hold [h24].
    Nothing is promised for a generator before its first install, or once
    the counter has carried out of its 40 bits. *)
Theorem installed_layout (w w0 : WUID) (h24 c : Z) (k : nat) :
  reachable w -> uint64 h24 -> 0 <= c -> c + Z.of_nat k < 2 ^ 40 ->
  install w h24 c = Some w0 ->
  let w' := snd (NextN k w0) in
  reachable w' /\ h24 <> 0 /\ low40 (N w') = c + Z.of_nat k /\
  (Section_ w' = 0 -> h24 <= 0xFFFFFF /\ high24 (N w') = h24) /\
  (Section_ w' <> 0 ->
   h24 <= 0x0FFFFF /\ top4 (N w') = Section_ w' /\ mid20 (N w') = h24).
Proof.
  intros Hr Hh Hc Hk Hi w'.
  pose proof (reachable_Section w Hr) as Hs.
  assert (Hc' : 0 <= c < 2 ^ 40) by lia.
  pose proof (install_value w w0 h24 c Hs Hh Hc' Hi) as HN.
  pose proof (install_Section w w0 h24 c Hi) as HS.
  assert (Hr0 : reachable w0) by (apply (reach_install w w0 h24 c); assumption).
  assert (V : VerifyH24 w h24 = None).
  { unfold install in Hi. destruct (VerifyH24 w h24); [discriminate | reflexivity]. }
  destruct (VerifyH24_ok w h24 V) as (Hnz & Hu & Hsh).
  assert (Hb : 0 <= h24 + Section_ w * 2 ^ 20 < 2 ^ 24).
  { unfold uint64 in Hh.
    destruct (Z.eq_dec (Section_ w) 0) as [E | E];
      [specialize (Hu E) | specialize (Hsh E)]; lia. }
  assert (H0 : uint64 (N w0)) by (rewrite HN; unfold uint64; lia).
  assert (HN' : N w' = (c + Z.of_nat k) + (h24 + Section_ w * 2 ^ 20) * 2 ^ 40).
  { subst w'. rewrite (NextN_state k w0 H0). cbn [N setN].
    rewrite wrap64_small by (rewrite HN; unfold uint64; lia).
    rewrite HN. lia. }
  assert (HS' : Section_ w' = Section_ w).
  { subst w'. rewrite (NextN_state k w0 H0). exact HS. }
  split; [apply NextN_reachable, Hr0 |]. split; [exact Hnz |].
  rewrite HS'. split; [| split].
  - rewrite low40_mod, HN'. apply split_mod; lia.
  - intros E. split; [exact (Hu E) |].
    rewrite high24_div, HN', E. rewrite split_div by lia. lia.
  - intros E. specialize (Hsh E). unfold uint64 in Hh.
    split; [exact Hsh |]. split.
    + unfold top4. rewrite Z.shiftr_div_pow2 by lia. rewrite HN'.
      replace (c + Z.of_nat k + (h24 + Section_ w * 2 ^ 20) * 2 ^ 40)
        with ((c + Z.of_nat k + h24 * 2 ^ 40) + Section_ w * 2 ^ 60) by lia.
      apply split_div; lia.
    + unfold mid20. change 0x0FFFFF with (Z.ones 20).
      rewrite land_ones_mod by lia. rewrite Z.shiftr_div_pow2 by lia.
      rewrite HN', split_div by lia. apply split_mod; lia.
Qed.

Lemma installed_layout_witness :
  let w := mkWUID 5 0 "t" None None in
  let w' := snd (NextN 2 (mkWUID 5 0x5000070000000003 "t" None None)) in
  reachable w' /\ low40 (N w') = 5 /\ top4 (N w') = 5 /\ mid20 (N w') = 7.
Proof.
  intros w w'.
  assert (H5 : 1 <= 5 <= 15) by lia.
  assert (Hr : reachable w) by apply (proj2 (reachable_fresh "t" None 5 H5)).
  assert (Hh : uint64 7) by (unfold uint64; lia).
  assert (Hc : 0 <= 3) by lia.
  assert (Hk : 3 + Z.of_nat 2 < 2 ^ 40) by lia.
  assert (Hi : install w 7 3 = Some (mkWUID 5 0x5000070000000003 "t" None None))
    by reflexivity.
  destruct (installed_layout w _ 7 3 2 Hr Hh Hc Hk Hi) as (R & _ & L & _ & S).
  split; [exact R |]. split; [exact L |].
  apply S. discriminate.
Defined.

(** * The renewal goroutine *)

Lemma string_app_nil_r (s : string) : (s ++ "")%string = s.
Proof. induction s as [| a s IH]; cbn; [| rewrite IH]; reflexivity. Qed.

Lemma string_app_assoc (a b c : string) :
  ((a ++ b) ++ c)%string = (a ++ b ++ c)%string.
Proof. induction a as [| x a IH]; cbn; [| rewrite IH]; reflexivity. Qed.

Lemma contains_suffix (pre part : string) : contains (pre ++ part) part.
Proof. exists pre, ""%string. rewrite string_app_nil_r. reflexivity. Qed.

Lemma contains_reason (head tag part : string) :
  contains (head ++ tag ++ ", reason: " ++ part) part.
Proof.
  rewrite <- (string_app_assoc tag), <- (string_app_assoc head).
  apply contains_suffix.
Qed.

(** C9, as the specification states it, fails for a panic whose
    recovered value is nil: the deferred function logs only when
    [recover()] is non-nil, so [panic(nil)], where the runtime hands back
    nil, is caught without a warning although a logger is configured. *)
Lemma renewTask_contained_counterexample :
  let w := mkWUID 0 0 "t" (Some 0%nat) None in
  let f : callback := fun _ => ([], Panic None) in
  Logger_ w <> None /\ snd (f 0) = Panic None /\
  taskEscaped w (Some f) 0 = None /\
  taskLogs w (Some f) 0 = [] /\
  (forall msg, taskLogs w (Some f) 0 <> [Warn msg]).
Proof.
  intros w f. split; [discriminate |]. split; [reflexivity |].
  split; [reflexivity |]. split; [reflexivity |].
  intros msg H. cbv in H. discriminate.
Qed.

(** C9 (amended). One run of the goroutine started by [Next].  No panic
    escapes it, whether the callback returns, panics, or is the nil func.
    With a logger configured it makes exactly one call on the logger,
    [Warn] with the error text when the callback returns an error, [Info]
    when it returns [nil], [Warn] with the panic value when it panics
    with a value that [recover()] hands back non-nil (the nil func
    included); a panic whose recovered value is nil is caught without any
    call.  With no logger it makes no call at all.  The value [Next]
    returns does not depend on the callback or the logger. *)
Theorem renewTask_contained (w : WUID) (f : callback) (reply : Z) :
  (taskEscaped w (Some f) reply = None /\ taskEscaped w None reply = None) /\
  (Logger_ w = None ->
   taskLogs w (Some f) reply = [] /\ taskLogs w None reply = []) /\
  (Logger_ w <> None ->
   match snd (f reply) with
   | Return (Some e) =>
       taskLogs w (Some f) reply =
         [Warn ("[wuid] renew failed. tag: " ++ Tag w ++ ", reason: " ++ e)] /\
       contains ("[wuid] renew failed. tag: " ++ Tag w ++ ", reason: " ++ e) e
   | Return None =>
       taskLogs w (Some f) reply =
         [Info ("[wuid] renew succeeded. tag: " ++ Tag w)]
   | Panic (Some r) =>
       taskLogs w (Some f) reply =
         [Warn ("[wuid] panic. tag: " ++ Tag w ++ ", reason: " ++ r)] /\
       contains ("[wuid] panic. tag: " ++ Tag w ++ ", reason: " ++ r) r
   | Panic None =>
       taskLogs w (Some f) reply = []
   end /\
   exists msg, taskLogs w None reply = [Warn msg]) /\
  (forall (logger : Logger) (renew : option callback),
     NextValue (mkWUID (Section_ w) (N w) (Tag w) logger renew) = NextValue w).
Proof.
  unfold taskEscaped, taskLogs, renewTask, renewBody, renewDeferred, recover.
  destruct (f reply) as [resets out].
  split; [| split; [| split]].
  - split; [| destruct (Logger_ w); reflexivity].
    destruct out as [[e |] | [r |]]; destruct (Logger_ w); reflexivity.
  - intros ->. split; [| reflexivity].
    destruct out as [[e |] | [r |]]; reflexivity.
  - intros Hl. destruct (Logger_ w) as [l |]; [| contradiction].
    split.
    + cbn [snd]. destruct out as [[e |] | [r |]]; cbn [fst snd app].
      * split; [reflexivity | apply contains_reason].
      * reflexivity.
      * split; [reflexivity | apply contains_reason].
      * reflexivity.
    + eexists. reflexivity.
  - intros logger renew. rewrite !NextValue_eq. reflexivity.
Qed.

Lemma renewTask_contained_witness :
  let w := mkWUID 0 0 "t" (Some 0%nat) None in
  let f : callback := fun _ => ([], Return (Some "db down"%string)) in
  let g : callback := fun _ => ([], Panic (Some "boom"%string)) in
  Logger_ w <> None /\
  taskLogs w (Some f) 0 = [Warn "[wuid] renew failed. tag: t, reason: db down"] /\
  taskLogs w (Some g) 0 = [Warn "[wuid] panic. tag: t, reason: boom"] /\
  taskLogs (mkWUID 0 0 "t" None None) (Some f) 0 = [].
Proof.
  intros w f g.
  assert (Hl : Logger_ w <> None) by discriminate.
  destruct (renewTask_contained w f 0) as (_ & _ & Hw & _).
  destruct (Hw Hl) as [[Hm _] _].
  destruct (renewTask_contained w g 0) as (_ & _ & Hg & _).
  destruct (Hg Hl) as [[Hp _] _].
  destruct (renewTask_contained (mkWUID 0 0 "t" None None) f 0) as (_ & Hn & _).
  split; [exact Hl |]. split; [exact Hm |]. split; [exact Hp |].
  apply Hn. reflexivity.
Defined.

(** * Construction *)

(** C10. [NewWUID] starts from [N = 0] and no option built by
    [WithSection] changes [N]: on a freshly constructed generator the
    first call of [Next] returns 1, whose bits above the 40-bit counter
    are all zero. *)
Theorem NewWUID_first_Next
  (tag : string) (logger : Logger) (sections : list Z) (opts : list Option) :
  evalSections sections = Ok opts ->
  N (NewWUID tag logger opts) = 0 /\
  NextValue (NewWUID tag logger opts) = 1 /\
  high24 (NextValue (NewWUID tag logger opts)) = 0 /\
  (forall opt, In opt opts -> forall w, N (opt w) = N w).
Proof.
  intros H.
  assert (H0 : N (NewWUID tag logger opts) = 0).
  { unfold NewWUID. rewrite (evalSections_keep_N sections opts _ H). reflexivity. }
  split; [exact H0 |].
  rewrite NextValue_eq, H0. split; [reflexivity |]. split; [reflexivity |].
  clear H0. revert opts H.
  induction sections as [| s rest IH]; intros opts H opt Hin w;
    cbn [evalSections] in H.
  - injection H as <-. destruct Hin.
  - destruct (WithSection_cases s) as [E | E]; rewrite E in H; cbn [bind] in H;
      [discriminate |].
    destruct (evalSections rest) as [os | msg] eqn:Er; cbn [bind] in H;
      [| discriminate].
    injection H as <-. destruct Hin as [<- | Hin]; [reflexivity |].
    apply (IH os eq_refl opt Hin).
Qed.

Lemma NewWUID_first_Next_witness :
  exists opts,
    evalSections [5] = Ok opts /\
    N (NewWUID "t" None opts) = 0 /\
    NextValue (NewWUID "t" None opts) = 1.
Proof.
  exists [fun w => setSection w 5].
  assert (H : evalSections [5] = Ok [fun w => setSection w 5]) by reflexivity.
  destruct (NewWUID_first_Next "t" None [5] _ H) as (H0 & H1 & _).
  split; [exact H |]. split; [exact H0 | exact H1].
Defined.

(** * Further properties of the generator *)

(** ** Where the renewal test holds *)

Lemma CriticalValue_eq : CriticalValue = 879609302220.
Proof. reflexivity. Qed.

Lemma renewDue_mod (x : Z) :
  renewDue x = true <-> CriticalValue <= x mod 2 ^ 40 /\ x mod 2 ^ 33 = 0.
Proof.
  unfold renewDue. change (Z.land x 0xFFFFFFFFFF) with (low40 x).
  rewrite low40_mod, throttle_mod, andb_true_iff, Z.leb_le, Z.eqb_eq.
  reflexivity.
Qed.

Lemma mod40_mod33 (x : Z) : (x mod 2 ^ 40) mod 2 ^ 33 = x mod 2 ^ 33.
Proof. apply Z.mod_mod_divide. exists (2 ^ 7). reflexivity. Qed.

(** X1. The test of [Next] depends on the 40-bit counter alone, and holds
    at 25 counter values only: the multiples [k * 2^33] of the throttle
    window with [103 <= k <= 127].  The first of them, 884763262976, lies
    above [CriticalValue], which is not a multiple of [2^33]. *)
Theorem renewDue_points (x : Z) :
  renewDue x = true <->
  exists k, 103 <= k <= 127 /\ low40 x = k * 2 ^ 33.
Proof.
  rewrite renewDue_mod, low40_mod, CriticalValue_eq.
  pose proof (Z.mod_pos_bound x (2 ^ 40) ltac:(lia)) as B.
  split.
  - intros [Hc Hm]. rewrite <- mod40_mod33 in Hm.
    pose proof (Z.div_mod (x mod 2 ^ 40) (2 ^ 33) ltac:(lia)) as D.
    rewrite Hm in D. exists (x mod 2 ^ 40 / 2 ^ 33). lia.
  - intros (k & Hk & E). split; [lia |].
    rewrite <- mod40_mod33, E. apply Z.mod_mul. lia.
Qed.

Lemma renewDue_points_witness :
  renewDue 0xABCDEFCE00000000 = true /\
  exists k, 103 <= k <= 127 /\ low40 0xABCDEFCE00000000 = k * 2 ^ 33.
Proof.
  split; [reflexivity |].
  apply (proj1 (renewDue_points 0xABCDEFCE00000000)). reflexivity.
Defined.

Lemma spawn_after (k : nat) (w : WUID) :
  uint64 (N w) ->
  NextSpawn (snd (NextN k w)) =
  if renewDue (wrap64 (N w + Z.of_nat k + 1)) then Some (Renew w) else None.
Proof.
  intros Hw. rewrite (NextN_state k w Hw), NextSpawn_eq, NextValue_eq.
  cbn [N setN Renew]. rewrite wrap64_add_idem. reflexivity.
Qed.

(** X2. Counting from a state whose 40-bit counter is 0, as an install
    of [epoch << 40] leaves it, none of the first 884763262975 calls of
    [Next] starts a renewal and the call number 884763262976
    ([103 * 2^33]) starts the first one, with the callback held by the
    generator. *)
Theorem first_renewal (w : WUID) (k : nat) :
  uint64 (N w) -> low40 (N w) = 0 ->
  Z.of_nat k + 1 <= 884763262976 ->
  (NextSpawn (snd (NextN k w)) <> None <-> Z.of_nat k + 1 = 884763262976) /\
  (Z.of_nat k + 1 = 884763262976 ->
   NextSpawn (snd (NextN k w)) = Some (Renew w)).
Proof.
  intros Hw Hl Hk. rewrite (spawn_after k w Hw).
  destruct (uint64_split (N w) Hw) as (D & _ & Hh).
  rewrite low40_mod in Hl. rewrite Hl in D.
  assert (Hv : wrap64 (N w + Z.of_nat k + 1)
               = (Z.of_nat k + 1) + (N w / 2 ^ 40) * 2 ^ 40).
  { rewrite wrap64_small by (unfold uint64; lia). lia. }
  assert (H40 : wrap64 (N w + Z.of_nat k + 1) mod 2 ^ 40 = Z.of_nat k + 1).
  { rewrite Hv. apply split_mod; lia. }
  destruct (renewDue (wrap64 (N w + Z.of_nat k + 1))) eqn:E.
  - apply renewDue_mod in E. destruct E as [Hc Hm].
    rewrite <- mod40_mod33, H40 in Hm. rewrite H40, CriticalValue_eq in Hc.
    pose proof (Z.div_mod (Z.of_nat k + 1) (2 ^ 33) ltac:(lia)) as Dk.
    rewrite Hm in Dk.
    assert (Z.of_nat k + 1 = 884763262976) by lia.
    split; [split; [intros _; assumption | intros _; discriminate] |].
    intros _. reflexivity.
  - assert (Hne : Z.of_nat k + 1 <> 884763262976).
    { intros Hq.
      assert (T : renewDue (wrap64 (N w + Z.of_nat k + 1)) = true).
      { apply renewDue_mod. rewrite <- mod40_mod33, H40, CriticalValue_eq, Hq.
        split; [lia | reflexivity]. }
      rewrite T in E. discriminate. }
    split; [split; [intros H; exfalso; apply H; reflexivity | intros H; contradiction] |].
    intros H. contradiction.
Qed.

Lemma first_renewal_witness :
  let w := mkWUID 0 0x70000000000 "t" None None in
  uint64 (N w) /\ low40 (N w) = 0 /\ NextSpawn (snd (NextN 2 w)) = None.
Proof.
  intros w.
  assert (Hw : uint64 (N w)) by (unfold uint64; cbn; lia).
  assert (Hl : low40 (N w) = 0) by reflexivity.
  assert (Hk : Z.of_nat 2 + 1 <= 884763262976) by (cbn; lia).
  destruct (first_renewal w 2 Hw Hl Hk) as [[Hi _] _].
  split; [exact Hw |]. split; [exact Hl |].
  destruct (NextSpawn (snd (NextN 2 w))) as [c |]; [| reflexivity].
  assert (Hq : Z.of_nat 2 + 1 = 884763262976) by (apply Hi; discriminate).
  cbn in Hq. discriminate.
Defined.

(** ** The counter and the section bits *)

Lemma low60_mod (x : Z) : low60 x = x mod 2 ^ 60.
Proof.
  unfold low60. change 0x0FFFFFFFFFFFFFFF with (Z.ones 60).
  apply land_ones_mod. lia.
Qed.

Lemma top4_div (x : Z) : top4 x = x / 2 ^ 60.
Proof. unfold top4. apply Z.shiftr_div_pow2. lia. Qed.

Lemma uint64_split60 (x : Z) :
  uint64 x ->
  x = x mod 2 ^ 60 + (x / 2 ^ 60) * 2 ^ 60 /\
  0 <= x mod 2 ^ 60 < 2 ^ 60 /\ 0 <= x / 2 ^ 60 < 2 ^ 4.
Proof.
  unfold uint64. intros Hx.
  pose proof (Z.div_mod x (2 ^ 60) ltac:(lia)) as D.
  pose proof (Z.mod_pos_bound x (2 ^ 60) ltac:(lia)) as B.
  split; [lia |]. split; [exact B |].
  split; [apply Z.div_pos; lia |].
  apply Z.div_lt_upper_bound; lia.
Qed.

(** X3. [Next] keeps the top 4 bits, where a sharded generator holds its
    section, as long as the 60 bits below them are not all ones.  From
    [0x0FFFFFFFFFFFFFFF] in the low 60 bits the increment clears them and
    adds one, modulo 16, to the top 4 bits: the identifiers move into the
    range of the next section, although the [Section] field stays. *)
Theorem Next_section_bits (w : WUID) :
  uint64 (N w) ->
  (low60 (N w) <> 0x0FFFFFFFFFFFFFFF ->
   top4 (N (NextState w)) = top4 (N w) /\
   low60 (N (NextState w)) = low60 (N w) + 1) /\
  (low60 (N w) = 0x0FFFFFFFFFFFFFFF ->
   top4 (N (NextState w)) = (top4 (N w) + 1) mod 16 /\
   low60 (N (NextState w)) = 0 /\
   Section_ (NextState w) = Section_ w).
Proof.
  intros Hw. rewrite NextState_eq. cbn [N setN Section_].
  rewrite !low60_mod, !top4_div.
  destruct (uint64_split60 (N w) Hw) as (D & Hl & Hh).
  set (l := N w mod 2 ^ 60) in *. set (h := N w / 2 ^ 60) in *.
  split.
  - intros Hne.
    rewrite wrap64_small by (unfold uint64; lia).
    replace (N w + 1) with ((l + 1) + h * 2 ^ 60) by lia.
    rewrite split_div, split_mod by lia. split; reflexivity.
  - intros He. unfold wrap64.
    replace (N w + 1) with ((h + 1) * 2 ^ 60) by lia.
    change (2 ^ 64) with (16 * 2 ^ 60).
    rewrite Z.mul_mod_distr_r by lia.
    rewrite Z.div_mul, Z.mod_mul by lia. repeat split; reflexivity.
Qed.

Lemma Next_section_bits_witness :
  let w := mkWUID 5 0x5FFFFFFFFFFFFFFF "t" None None in
  uint64 (N w) /\ low60 (N w) = 0x0FFFFFFFFFFFFFFF /\
  top4 (N w) = 5 /\ top4 (N (NextState w)) = 6 /\ Section_ (NextState w) = 5.
Proof.
  intros w.
  assert (Hw : uint64 (N w)) by (unfold uint64; cbn; lia).
  assert (Hl : low60 (N w) = 0x0FFFFFFFFFFFFFFF) by reflexivity.
  destruct (proj2 (Next_section_bits w Hw) Hl) as (Ht & _ & Hs).
  split; [exact Hw |]. split; [exact Hl |]. split; [reflexivity |].
  split; [| exact Hs].
  rewrite Ht. reflexivity.
Defined.

(** ** Installs compose *)

Lemma Reset_value_fixed (s n : Z) :
  let m := 0x0FFFFFFFFFFFFFFF in
  let t := wrap64 (Z.shiftl s 60) in
  Z.lor (Z.land (Z.lor (Z.land n m) t) m) t = Z.lor (Z.land n m) t.
Proof.
  intros m t. apply Z.bits_inj'. intros i _.
  rewrite !Z.lor_spec, !Z.land_spec, !Z.lor_spec, !Z.land_spec.
  destruct (Z.testbit n i), (Z.testbit m i), (Z.testbit t i); reflexivity.
Qed.

Lemma Reset_Reset (w : WUID) (a b : Z) : Reset (Reset w a) b = Reset w b.
Proof. unfold Reset. destruct (Section_ w =? 0) eqn:E; cbn [Section_ setN]; rewrite E; reflexivity. Qed.

Lemma fold_Reset_last (resets : list Z) (n : Z) (w : WUID) :
  fold_left Reset (resets ++ [n]) w = Reset w n.
Proof.
  rewrite fold_left_app. cbn [fold_left].
  revert w. induction resets as [| a rest IH]; intros w; [reflexivity |].
  cbn [fold_left]. rewrite IH. apply Reset_Reset.
Qed.

(** X4. Installs do not accumulate: after a sequence of [Reset] calls
    the generator is in the state the last call alone would have left,
    whatever the earlier arguments were.  And installing the value a
    [Reset] stored is a no-op, sharded or not: the stored value is a
    fixed point of the masking. *)
Theorem Reset_last_wins (w : WUID) (resets : list Z) (n : Z) :
  fold_left Reset (resets ++ [n]) w = Reset w n /\
  Reset (Reset w n) (N (Reset w n)) = Reset w n.
Proof.
  split; [apply fold_Reset_last |].
  rewrite Reset_Reset. unfold Reset.
  destruct (Section_ w =? 0); cbn [N setN]; [reflexivity |].
  unfold setN. f_equal. apply Reset_value_fixed.
Qed.

Lemma Reset_last_wins_witness :
  fold_left Reset ([1; 2] ++ [0xF000000000000123]) (mkWUID 5 7 "t" None None)
  = mkWUID 5 0x5000000000000123 "t" None None.
Proof.
  rewrite (proj1 (Reset_last_wins (mkWUID 5 7 "t" None None) [1; 2] 0xF000000000000123)).
  reflexivity.
Defined.

(** ** Identifier ranges do not overlap *)

Lemma issued_high24 (w w0 : WUID) (h24 c : Z) (k : nat) (x : Z) :
  0 <= Section_ w <= 15 -> uint64 h24 ->
  0 <= c -> c + Z.of_nat k < 2 ^ 40 ->
  install w h24 c = Some w0 ->
  In x (fst (NextN k w0)) ->
  high24 x = h24 + Section_ w * 2 ^ 20 /\
  0 < h24 /\ (Section_ w <> 0 -> h24 < 2 ^ 20).
Proof.
  intros Hs Hh Hc Hk Hi Hx.
  assert (Hc' : 0 <= c < 2 ^ 40) by lia.
  pose proof (install_value w w0 h24 c Hs Hh Hc' Hi) as HN.
  assert (V : VerifyH24 w h24 = None).
  { unfold install in Hi. destruct (VerifyH24 w h24); [discriminate | reflexivity]. }
  destruct (VerifyH24_ok w h24 V) as (Hnz & Hu & Hsh).
  unfold uint64 in Hh.
  assert (Hb : 0 <= h24 + Section_ w * 2 ^ 20 < 2 ^ 24).
  { destruct (Z.eq_dec (Section_ w) 0) as [E | E];
      [specialize (Hu E) | specialize (Hsh E)]; lia. }
  rewrite NextN_values in Hx. apply in_map_iff in Hx.
  destruct Hx as (i & <- & Hin). apply in_seq in Hin.
  rewrite wrap64_small by (rewrite HN; unfold uint64; lia).
  rewrite high24_div, HN.
  replace (c + (h24 + Section_ w * 2 ^ 20) * 2 ^ 40 + Z.of_nat i)
    with ((c + Z.of_nat i) + (h24 + Section_ w * 2 ^ 20) * 2 ^ 40) by lia.
  rewrite split_div by lia.
  split; [reflexivity |]. split; [lia |].
  intros E. specialize (Hsh E). lia.
Qed.

(** X6. Identifiers issued under different prefixes never coincide.
    Take two calls [Reset (h << 40 + c)] whose epoch [h] passed
    [VerifyH24], on one generator or on two, each followed by [Next]
    calls that keep its counter below [2^40].  If the generators have the
    same section and the epochs differ, or both are sharded with
    different sections, then no identifier issued after the first call
    equals one issued after the second. *)
Theorem issued_disjoint
  (w1 w2 : WUID) (h1 h2 c1 c2 : Z) (k1 k2 : nat) (x1 x2 : Z) :
  0 <= Section_ w1 <= 15 -> 0 <= Section_ w2 <= 15 ->
  uint64 h1 -> uint64 h2 ->
  VerifyH24 w1 h1 = None -> VerifyH24 w2 h2 = None ->
  0 <= c1 -> c1 + Z.of_nat k1 < 2 ^ 40 ->
  0 <= c2 -> c2 + Z.of_nat k2 < 2 ^ 40 ->
  (Section_ w1 = Section_ w2 /\ h1 <> h2) \/
  (Section_ w1 <> 0 /\ Section_ w2 <> 0 /\ Section_ w1 <> Section_ w2) ->
  In x1 (fst (NextN k1 (Reset w1 (wrap64 (Z.shiftl h1 40) + c1)))) ->
  In x2 (fst (NextN k2 (Reset w2 (wrap64 (Z.shiftl h2 40) + c2)))) ->
  x1 <> x2.
Proof.
  intros Hs1 Hs2 Hh1 Hh2 V1 V2 Hc1 Hk1 Hc2 Hk2 Hd Hx1 Hx2 E.
  assert (Hi1 : install w1 h1 c1 = Some (Reset w1 (wrap64 (Z.shiftl h1 40) + c1)))
    by (unfold install; rewrite V1; reflexivity).
  assert (Hi2 : install w2 h2 c2 = Some (Reset w2 (wrap64 (Z.shiftl h2 40) + c2)))
    by (unfold install; rewrite V2; reflexivity).
  destruct (issued_high24 w1 _ h1 c1 k1 x1 Hs1 Hh1 Hc1 Hk1 Hi1 Hx1)
    as (E1 & P1 & B1).
  destruct (issued_high24 w2 _ h2 c2 k2 x2 Hs2 Hh2 Hc2 Hk2 Hi2 Hx2)
    as (E2 & P2 & B2).
  rewrite E, E2 in E1.
  destruct Hd as [[Es Hne] | (N1 & N2 & Hne)].
  - rewrite Es in E1. lia.
  - specialize (B1 N1). specialize (B2 N2). lia.
Qed.

Lemma issued_disjoint_witness :
  let a := mkWUID 5 0 "a" None None in
  let b := mkWUID 6 0 "b" None None in
  In 0x5000070000000001 (fst (NextN 3 (Reset a (wrap64 (Z.shiftl 7 40) + 0)))) /\
  In 0x6000070000000001 (fst (NextN 3 (Reset b (wrap64 (Z.shiftl 7 40) + 0)))) /\
  0x5000070000000001 <> 0x6000070000000001.
Proof.
  intros a b.
  assert (Ha : In 0x5000070000000001
                 (fst (NextN 3 (Reset a (wrap64 (Z.shiftl 7 40) + 0)))))
    by (left; reflexivity).
  assert (Hb : In 0x6000070000000001
                 (fst (NextN 3 (Reset b (wrap64 (Z.shiftl 7 40) + 0)))))
    by (left; reflexivity).
  split; [exact Ha |]. split; [exact Hb |].
  apply (issued_disjoint a b 7 7 0 0 3 3);
    try (unfold uint64; cbn; lia); try reflexivity; assumption.
Defined.

(** ** Order of the identifiers *)

Lemma offsets_sorted (a : Z) (n : nat) : forall s : nat,
  StronglySorted Z.lt (map (fun i => a + Z.of_nat i) (seq s n)).
Proof.
  induction n as [| n IH]; intros s; cbn [seq map]; constructor.
  - apply IH.
  - apply Forall_forall. intros y Hy. apply in_map_iff in Hy.
    destruct Hy as (i & <- & Hi). apply in_seq in Hi. lia.
Qed.

(** X7. As long as the 64-bit value does not wrap, the identifiers
    returned by consecutive calls of [Next] are strictly increasing, and
    each is greater than the value the generator started from. *)
Theorem Next_increasing (w : WUID) (n : nat) :
  uint64 (N w) -> N w + Z.of_nat n < 2 ^ 64 ->
  StronglySorted Z.lt (fst (NextN n w)) /\
  Forall (fun x => N w < x) (fst (NextN n w)).
Proof.
  intros Hw Hn.
  assert (E : fst (NextN n w) = map (fun i => N w + Z.of_nat i) (seq 1 n)).
  { rewrite NextN_values. apply map_ext_in. intros i Hi. apply in_seq in Hi.
    apply wrap64_small. unfold uint64 in *. lia. }
  rewrite E. split; [apply offsets_sorted |].
  apply Forall_forall. intros y Hy. apply in_map_iff in Hy.
  destruct Hy as (i & <- & Hi). apply in_seq in Hi. lia.
Qed.

Lemma Next_increasing_witness :
  let w := mkWUID 0 0xFFFFFFFFFF "t" None None in
  uint64 (N w) /\ StronglySorted Z.lt (fst (NextN 3 w)).
Proof.
  intros w.
  assert (Hw : uint64 (N w)) by (unfold uint64; cbn; lia).
  split; [exact Hw |].
  apply (Next_increasing w 3 Hw). cbn. lia.
Defined.

(** X8. At the end of the 64-bit range [Next] wraps: from
    [0xFFFFFFFFFFFFFFFF] it returns 0, and that is the only state from
    which it returns 0 or a value that is not greater than the one
    before. *)
Theorem Next_wraps (w : WUID) :
  uint64 (N w) ->
  (NextValue w = 0 <-> N w = 0xFFFFFFFFFFFFFFFF) /\
  (NextValue w <= N w <-> N w = 0xFFFFFFFFFFFFFFFF) /\
  (N w <> 0xFFFFFFFFFFFFFFFF -> NextValue w = N w + 1).
Proof.
  unfold uint64. intros Hw. rewrite NextValue_eq. unfold wrap64.
  destruct (Z.eq_dec (N w) 0xFFFFFFFFFFFFFFFF) as [E | E].
  - rewrite E. change ((0xFFFFFFFFFFFFFFFF + 1) mod 2 ^ 64) with 0.
    repeat split; intros; try reflexivity; try lia.
  - rewrite Z.mod_small by lia. repeat split; intros; try lia.
Qed.

Lemma Next_wraps_witness :
  let w := mkWUID 0 0xFFFFFFFFFFFFFFFF "t" None None in
  uint64 (N w) /\ NextValue w = 0.
Proof.
  intros w.
  assert (Hw : uint64 (N w)) by (unfold uint64; cbn; lia).
  split; [exact Hw |].
  apply (proj1 (Next_wraps w Hw)). reflexivity.
Defined.

(** ** Construction with several options *)

Lemma last_cons (s : Z) (rest : list Z) : forall d, last (s :: rest) d = last rest s.
Proof.
  revert s. induction rest as [| a r IH]; intros s d; [reflexivity |].
  change (last (s :: a :: r) d) with (last (a :: r) d).
  rewrite (IH a d), (IH a s). reflexivity.
Qed.

Lemma evalSections_valid (sections : list Z) :
  Forall (fun s => 1 <= s <= 15) sections ->
  evalSections sections = Ok (map (fun s w => setSection w s) sections).
Proof.
  induction 1 as [| s rest Hs Hrest IH]; [reflexivity |].
  cbn [evalSections map]. rewrite (WithSection_valid s Hs), IH. reflexivity.
Qed.

Lemma fold_sections (sections : list Z) : forall w : WUID,
  fold_left (fun w opt => opt w) (map (fun s w => setSection w s) sections) w
  = setSection w (last sections (Section_ w)).
Proof.
  induction sections as [| s rest IH]; intros w.
  - destruct w; reflexivity.
  - cbn [map fold_left]. rewrite IH, last_cons. reflexivity.
Qed.

(** X10. A construction call with any number of [WithSection] options,
    each in [1, 15], succeeds, and the last option decides the section;
    with no option the generator is unsharded.  The new generator holds
    [N = 0] and a nil [Renew]: the callback is not a parameter of
    [NewWUID]. *)
Theorem construct_last_section
  (tag : string) (logger : Logger) (sections : list Z) :
  Forall (fun s => 1 <= s <= 15) sections ->
  construct tag logger sections
  = Ok (mkWUID (last sections 0) 0 tag logger None).
Proof.
  intros H. unfold construct, NewWUID.
  rewrite (evalSections_valid sections H). cbn [bind].
  rewrite fold_sections. reflexivity.
Qed.

Lemma construct_last_section_witness :
  construct "t" None [3; 15; 7] = Ok (mkWUID 7 0 "t" None None).
Proof.
  apply (construct_last_section "t" None [3; 15; 7]).
  repeat constructor; cbn; discriminate.
Defined.

(** ** What a sharded install keeps of its argument *)

Lemma Reset_as_setN (w : WUID) (n : Z) : Reset w n = setN w (N (Reset w n)).
Proof. unfold Reset. destruct (Section_ w =? 0); reflexivity. Qed.

(** X11. [Reset] does not validate its argument.  On an unsharded
    generator two arguments leave the same state only if they are equal.
    On a generator with a section in [1, 15] they leave the same state
    exactly when they agree on the low 60 bits: an epoch wider than 20
    bits loses the part that falls on the section bits. *)
Theorem Reset_same_state (w : WUID) (n1 n2 : Z) :
  (Section_ w = 0 -> (Reset w n1 = Reset w n2 <-> n1 = n2)) /\
  (1 <= Section_ w <= 15 ->
   (Reset w n1 = Reset w n2 <-> low60 n1 = low60 n2)).
Proof.
  split; intros Hs.
  - split; [| intros ->; reflexivity].
    intros E. apply (f_equal N) in E. unfold Reset in E. rewrite Hs in E.
    exact E.
  - rewrite !low60_mod. split; intros E.
    + apply (f_equal N) in E. rewrite !Reset_sharded_value in E by assumption.
      lia.
    + rewrite (Reset_as_setN w n1), (Reset_as_setN w n2).
      rewrite !Reset_sharded_value by assumption. rewrite E. reflexivity.
Qed.

Lemma Reset_same_state_witness :
  let w := mkWUID 5 0 "t" None None in
  1 <= Section_ w <= 15 /\
  Reset w (Z.shiftl 0x100007 40) = Reset w (Z.shiftl 0x000007 40).
Proof.
  intros w.
  assert (Hs : 1 <= Section_ w <= 15) by (cbn; lia).
  split; [exact Hs |].
  apply (proj2 (Reset_same_state w _ _) Hs). reflexivity.
Defined.
